(** * minuitwrp/truetype.c: cached TrueType text rendering

    A shallow embedding of [truetype.c] and the properties of its three
    caches (font registry, per-font glyph cache, per-font string cache) and
    of its text shaper.

    Conventions of the embedding.
    - C [int] and [long] values are integers of [Z]; signed overflow is
      undefined in C, so the model describes the overflow-free runs.
      [>>] on a signed value is the arithmetic shift ([Z.shiftr]) and [/]
      truncates towards zero ([Z.quot]).
    - A pointer is a [positive]; [NULL] is [None].  The [StringCacheEntry]
      objects of a font live in a store [string_entries] that belongs to the
      font: [malloc] picks an address that is not in use, [free] removes it.
    - A function whose C run would read or write outside an object (a
      dereference of [NULL] or of a freed entry, a read behind the end of
      the string, a [memcpy] outside the surface) returns [None].
    - The mutexes are left out: every function is modelled as one atomic
      step, which is what the locks give their callers.
    - FreeType is an oracle: a face is a record of the answers FreeType
      gives for it. *)

From stdpp Require Import gmap list fin_maps.

Local Open Scope Z_scope.

Abbreviation ptr := positive.

Definition STRING_CACHE_MAX_ENTRIES : Z := 400.
Definition STRING_CACHE_TRUNCATE_ENTRIES : Z := 150.

(** ** FreeType and pixelflinger objects *)

Record FT_BBox := mkBBox { xMin : Z; yMin : Z; xMax : Z; yMax : Z }.

Record FT_Bitmap := mkBitmap {
  bitmap_rows : Z;
  bitmap_width : Z;
  bitmap_pitch : Z;
  bitmap_buffer : list Z;
  bitmap_pixel_mode : Z
}.

Definition FT_PIXEL_MODE_GRAY : Z := 2.
Definition FT_LOAD_DEFAULT : Z := 0.
Definition FT_LOAD_RENDER : Z := 4.

(** An [FT_BitmapGlyph]: [advance_x] is [root.advance.x] (16.16 fixed
    point), [glyph_cbox] is what [FT_Glyph_Get_CBox] with
    [FT_GLYPH_BBOX_PIXELS] answers for it. *)
Record FT_BitmapGlyph := mkGlyph {
  advance_x : Z;
  glyph_left : Z;
  glyph_top : Z;
  glyph_bitmap : FT_Bitmap;
  glyph_cbox : FT_BBox
}.

(** The face: [FT_Load_Glyph idx flags] is [None] on an error and the
    content of the glyph slot otherwise, [FT_Get_Glyph] copies the slot
    ([None] on an error), [FT_Get_Kerning prev cur] is [delta.x] (26.6). *)
Record FT_Face := mkFace {
  FT_Get_Char_Index : Z → Z;
  FT_Load_Glyph : Z → Z → option FT_BitmapGlyph;
  FT_Get_Glyph : FT_BitmapGlyph → option FT_BitmapGlyph;
  FT_HAS_KERNING : bool;
  FT_Get_Kerning : Z → Z → Z
}.

Record GGLSurface := mkSurface {
  version : Z;
  width : Z;
  height : Z;
  stride : Z;
  data : list Z;
  format : Z
}.

Definition GGL_PIXEL_FORMAT_A_8 : Z := 8.
Definition sizeof_GGLSurface : Z := 24.

(** [memset(&s, 0, sizeof s)] on a surface. *)
Definition zero_surface : GGLSurface := mkSurface 0 0 0 0 [] 0.

(** ** The structs of truetype.c *)

Record TrueTypeFontKey := mkFontKey {
  key_size : Z;
  key_dpi : Z;
  key_path : list Z
}.

Record TrueTypeCacheEntry := mkCacheEntry {
  bbox : FT_BBox;
  glyph : FT_BitmapGlyph
}.

Record StringCacheKey := mkStringKey {
  text : list Z;
  max_width : Z
}.

Record StringCacheEntry := mkStringEntry {
  surface : GGLSurface;
  rendered_len : Z;
  key : StringCacheKey;
  prev : option ptr;
  next : option ptr
}.

Global Instance TrueTypeFontKey_eq_dec : EqDecision TrueTypeFontKey.
Proof. solve_decision. Defined.

Global Instance TrueTypeFontKey_countable : Countable TrueTypeFontKey.
Proof.
  apply (inj_countable' (λ k, (key_size k, key_dpi k, key_path k))
                        (λ t, mkFontKey t.1.1 t.1.2 t.2)).
  by intros [].
Defined.

Global Instance StringCacheKey_eq_dec : EqDecision StringCacheKey.
Proof. solve_decision. Defined.

Global Instance StringCacheKey_countable : Countable StringCacheKey.
Proof.
  apply (inj_countable' (λ k, (text k, max_width k))
                        (λ t, mkStringKey t.1 t.2)).
  by intros [].
Defined.

Definition FONT_TYPE_TTF : Z := 1.

(** [TrueTypeFont].  The two hashmaps are finite maps: the glyph cache from
    the glyph index to its entry (entries are written once and never
    change, so they are kept by value), the string cache from the key to
    the address of its entry.  [string_entries] is the store of the
    [StringCacheEntry] objects allocated for this font. *)
Record TrueTypeFont := mkFont {
  type : Z;
  refcount : Z;
  font_size : Z;
  dpi : Z;
  max_height : Z;
  base : Z;
  face : FT_Face;
  glyph_cache : gmap Z TrueTypeCacheEntry;
  string_cache : gmap StringCacheKey ptr;
  string_cache_head : option ptr;
  string_cache_tail : option ptr;
  font_key : TrueTypeFontKey;
  string_entries : gmap ptr StringCacheEntry
}.

Definition set_refcount (f : TrueTypeFont) (v : Z) : TrueTypeFont :=
  mkFont (type f) v (font_size f) (dpi f) (max_height f) (base f) (face f)
    (glyph_cache f) (string_cache f) (string_cache_head f)
    (string_cache_tail f) (font_key f) (string_entries f).

Definition set_metrics (f : TrueTypeFont) (h b : Z) : TrueTypeFont :=
  mkFont (type f) (refcount f) (font_size f) (dpi f) h b (face f)
    (glyph_cache f) (string_cache f) (string_cache_head f)
    (string_cache_tail f) (font_key f) (string_entries f).

Definition set_glyph_cache (f : TrueTypeFont) (g : gmap Z TrueTypeCacheEntry)
  : TrueTypeFont :=
  mkFont (type f) (refcount f) (font_size f) (dpi f) (max_height f) (base f)
    (face f) g (string_cache f) (string_cache_head f) (string_cache_tail f)
    (font_key f) (string_entries f).

Definition set_string_cache (f : TrueTypeFont) (m : gmap StringCacheKey ptr)
  : TrueTypeFont :=
  mkFont (type f) (refcount f) (font_size f) (dpi f) (max_height f) (base f)
    (face f) (glyph_cache f) m (string_cache_head f) (string_cache_tail f)
    (font_key f) (string_entries f).

Definition set_head (f : TrueTypeFont) (p : option ptr) : TrueTypeFont :=
  mkFont (type f) (refcount f) (font_size f) (dpi f) (max_height f) (base f)
    (face f) (glyph_cache f) (string_cache f) p (string_cache_tail f)
    (font_key f) (string_entries f).

Definition set_tail (f : TrueTypeFont) (p : option ptr) : TrueTypeFont :=
  mkFont (type f) (refcount f) (font_size f) (dpi f) (max_height f) (base f)
    (face f) (glyph_cache f) (string_cache f) (string_cache_head f) p
    (font_key f) (string_entries f).

Definition set_entries (f : TrueTypeFont) (s : gmap ptr StringCacheEntry)
  : TrueTypeFont :=
  mkFont (type f) (refcount f) (font_size f) (dpi f) (max_height f) (base f)
    (face f) (glyph_cache f) (string_cache f) (string_cache_head f)
    (string_cache_tail f) (font_key f) s.

Definition set_face (f : TrueTypeFont) (fc : FT_Face) : TrueTypeFont :=
  mkFont (type f) (refcount f) (font_size f) (dpi f) (max_height f) (base f)
    fc (glyph_cache f) (string_cache f) (string_cache_head f)
    (string_cache_tail f) (font_key f) (string_entries f).

Definition set_prev (e : StringCacheEntry) (p : option ptr) : StringCacheEntry :=
  mkStringEntry (surface e) (rendered_len e) (key e) p (next e).

Definition set_next (e : StringCacheEntry) (p : option ptr) : StringCacheEntry :=
  mkStringEntry (surface e) (rendered_len e) (key e) (prev e) p.

(** ** utf8_to_unicode *)

(** The [unsigned short] the three bytes are packed into keeps 16 bits. *)
Definition to_ushort (z : Z) : Z := Z.land z 0xFFFF.

Definition utf8_to_unicode (c1 c2 c3 : Z) : Z :=
  let unicode := to_ushort (Z.shiftl (Z.land c1 0x1F) 12) in
  let unicode := to_ushort (Z.lor unicode (Z.shiftl (Z.land c2 0x3F) 6)) in
  let unicode := to_ushort (Z.lor unicode (Z.land c3 0x3F)) in
  unicode.

(** A byte read through [unsigned char]. *)
Definition uchar (z : Z) : Z := z mod 256.

(** ** Glyph cache *)

Definition gr_ttf_glyph_cache_peek (font : TrueTypeFont) (char_index : Z)
  : option TrueTypeCacheEntry :=
  glyph_cache font !! char_index.

Definition gr_ttf_glyph_cache_get (font : TrueTypeFont) (char_index : Z)
  : TrueTypeFont * option TrueTypeCacheEntry :=
  match glyph_cache font !! char_index with
  | Some res => (font, Some res)
  | None =>
      match FT_Load_Glyph (face font) char_index FT_LOAD_RENDER with
      | None => (font, None)
      | Some slot =>
          match FT_Get_Glyph (face font) slot with
          | None => (font, None)
          | Some glyph =>
              let res := mkCacheEntry (glyph_cbox glyph) glyph in
              (set_glyph_cache font (<[char_index := res]> (glyph_cache font)),
               Some res)
          end
      end
  end.

(** ** Compositing one glyph *)

(** [memcpy(dest + doff, src + soff, n)] inside two buffers. *)
Definition memcpy (dest : list Z) (doff : Z) (src : list Z) (soff n : Z)
  : option (list Z) :=
  if n =? 0 then Some dest
  else if (0 <=? doff) && (doff + n <=? Z.of_nat (length dest))
          && (0 <=? soff) && (soff + n <=? Z.of_nat (length src)) && (0 <? n)
  then Some (take (Z.to_nat doff) dest
             ++ take (Z.to_nat n) (drop (Z.to_nat soff) src)
             ++ drop (Z.to_nat (doff + n)) dest)
  else None.

(** The row loop of [gr_ttf_copy_glyph_to_surface]: [n] rows are left,
    [dest_itr] and [src_itr] are offsets into the two buffers. *)
Fixpoint copy_rows (n : nat) (bm : FT_Bitmap) (dstride : Z)
    (dest : list Z) (dest_itr src_itr : Z) : option (list Z) :=
  match n with
  | O => Some dest
  | S n' =>
      dest' ← memcpy dest dest_itr (bitmap_buffer bm) src_itr (bitmap_width bm);
      copy_rows n' bm dstride dest' (dest_itr + dstride) (src_itr + bitmap_pitch bm)
  end.

Definition gr_ttf_copy_glyph_to_surface (dest : GGLSurface)
    (glyph : FT_BitmapGlyph) (offX offY base : Z) : option (GGLSurface * Z) :=
  if negb (bitmap_pixel_mode (glyph_bitmap glyph) =? FT_PIXEL_MODE_GRAY)
  then Some (dest, -1)
  else
    let dest_itr :=
      (offY + base - glyph_top glyph) * stride dest + (offX + glyph_left glyph) in
    data' ← copy_rows (Z.to_nat (bitmap_rows (glyph_bitmap glyph)))
               (glyph_bitmap glyph) (stride dest) (data dest) dest_itr 0;
    Some (mkSurface (version dest) (width dest) (height dest) (stride dest)
            data' (format dest), 0).

(** ** Font metrics *)

Definition LONG_MAX : Z := 9223372036854775807.
Definition LONG_MIN : Z := - LONG_MAX - 1.

Definition MIN (X Y : Z) : Z := if X <? Y then X else Y.
Definition MAX (X Y : Z) : Z := if X >? Y then X else Y.

(** One turn of the loop over ['!'..'~']: [bb] is [(bbox.yMin, bbox.yMax)]. *)
Definition max_height_step (f : TrueTypeFont) (bb : Z * Z) (c : Z) : Z * Z :=
  let char_idx := FT_Get_Char_Index (face f) c in
  match gr_ttf_glyph_cache_peek f char_idx with
  | Some ent => (MIN bb.1 (yMin (bbox ent)), MAX bb.2 (yMax (bbox ent)))
  | None =>
      match FT_Load_Glyph (face f) char_idx FT_LOAD_DEFAULT with
      | None => bb
      | Some slot =>
          match FT_Get_Glyph (face f) slot with
          | None => bb
          | Some g =>
              (MIN bb.1 (yMin (glyph_cbox g)), MAX bb.2 (yMax (glyph_cbox g)))
          end
      end
  end.

(** The characters ['!'] (33) to ['~'] (126). *)
Definition printable_range : list Z := seqZ 33 94.

Definition gr_ttf_getMaxFontHeight (f : TrueTypeFont) : TrueTypeFont * Z :=
  if max_height f =? -1 then
    let bb := foldl (max_height_step f) (LONG_MAX, LONG_MIN) printable_range in
    let bb := if bb.1 >? bb.2 then (0, 0) else bb in
    let f' := set_metrics f (bb.2 - bb.1 + font_size f ÷ 4)
                            (bb.2 + font_size f ÷ 4) in
    (f', max_height f')
  else (f, max_height f).

(** ** Shaping: gr_ttf_render_text *)

Definition kerning_applies (f : TrueTypeFont) (prev_idx char_idx : Z) : bool :=
  FT_HAS_KERNING (face f) && negb (prev_idx =? 0) && negb (char_idx =? 0).

(** The state of the first loop: the font (its glyph cache grows),
    [max_len], [total_w], [prev_idx] and the part of [char_idxs] written. *)
Definition measure_state : Type := TrueTypeFont * Z * Z * list Z.

(** The body of the first loop of [gr_ttf_render_text] after [char_idx] is
    known; [continue] is the rest of the loop on the rest of the string. *)
Definition render_measure_body (max_width : Z) (f : TrueTypeFont)
    (max_len total_w prev_idx : Z) (char_idxs : list Z) (char_idx : Z)
    (continue : TrueTypeFont → Z → Z → Z → list Z → option measure_state)
  : option measure_state :=
  let char_idxs := char_idxs ++ [char_idx] in
  let '(f, ent) := gr_ttf_glyph_cache_get f char_idx in
  match ent with
  | Some ent =>
      let diff := Z.shiftr (advance_x (glyph ent)) 16 in
      let diff :=
        if kerning_applies f prev_idx char_idx
        then diff + Z.shiftr (FT_Get_Kerning (face f) prev_idx char_idx) 6
        else diff in
      if negb (max_width =? -1) && (total_w + diff >? max_width)
      then Some (f, max_len, total_w, char_idxs)
      else continue f (max_len + 1) (total_w + diff) char_idx char_idxs
  | None => continue f (max_len + 1) total_w char_idx char_idxs
  end.

(** The first loop, on the bytes of the array that holds the string, the
    terminating 0 included: the empty list is a read behind the array. *)
Fixpoint render_measure_loop (buf : list Z) (max_width : Z) (f : TrueTypeFont)
    (max_len total_w prev_idx : Z) (char_idxs : list Z)
  : option measure_state :=
  match buf with
  | [] => None
  | c :: rest =>
      let c := uchar c in
      if c =? 0 then Some (f, max_len, total_w, char_idxs)
      else if c <? 0x80 then
        render_measure_body max_width f max_len total_w prev_idx char_idxs
          (FT_Get_Char_Index (face f) c)
          (render_measure_loop rest max_width)
      else
        match rest with
        | c2 :: c3 :: rest' =>
            render_measure_body max_width f max_len total_w prev_idx char_idxs
              (FT_Get_Char_Index (face f)
                 (utf8_to_unicode c (uchar c2) (uchar c3)))
              (render_measure_loop rest' max_width)
        | _ => None
        end
  end.

(** The second loop: the glyphs [char_idxs[0..max_len)] are copied into the
    surface, [x] is the cursor. *)
Fixpoint render_composite_loop (char_idxs : list Z) (f : TrueTypeFont)
    (surface : GGLSurface) (x prev_idx : Z)
  : option (TrueTypeFont * GGLSurface * Z) :=
  match char_idxs with
  | [] => Some (f, surface, x)
  | char_idx :: rest =>
      let x :=
        if kerning_applies f prev_idx char_idx
        then x + Z.shiftr (FT_Get_Kerning (face f) prev_idx char_idx) 6
        else x in
      let '(f, ent) := gr_ttf_glyph_cache_get f char_idx in
      match ent with
      | Some ent =>
          '(surface, _) ←
            gr_ttf_copy_glyph_to_surface surface (glyph ent) x 0 (base f);
          render_composite_loop rest f surface
            (x + Z.shiftr (advance_x (glyph ent)) 16) char_idx
      | None => render_composite_loop rest f surface x char_idx
      end
  end.

(** [malloc(n)] followed by [memset(data, 0, n)]. *)
Definition malloc_zeroed (n : Z) : option (list Z) :=
  if n <? 0 then None else Some (replicate (Z.to_nat n) 0).

Definition gr_ttf_render_text (font : TrueTypeFont) (surface : GGLSurface)
    (text : list Z) (max_width : Z) : option (TrueTypeFont * GGLSurface * Z) :=
  '(f, max_len, total_w, char_idxs) ←
    render_measure_loop (text ++ [0]) max_width font 0 0 0 [];
  let f := if max_height f =? -1 then (gr_ttf_getMaxFontHeight f).1 else f in
  if max_height f =? -1 then Some (f, surface, -1)
  else
    let height := max_height f in
    data ← malloc_zeroed (total_w * height);
    let surface :=
      mkSurface sizeof_GGLSurface total_w height total_w data
        GGL_PIXEL_FORMAT_A_8 in
    '(f, surface, _) ←
      render_composite_loop (take (Z.to_nat max_len) char_idxs) f surface 0 0;
    Some (f, surface, max_len).

(** ** String cache *)

(** [*p] for an entry pointer: [None] when [p] is not allocated. *)
Definition deref (f : TrueTypeFont) (p : ptr) : option StringCacheEntry :=
  string_entries f !! p.

Definition store (f : TrueTypeFont) (p : ptr) (e : StringCacheEntry)
  : TrueTypeFont :=
  set_entries f (<[p := e]> (string_entries f)).

(** [p->next = v] and [p->prev = v]. *)
Definition assign_next (f : TrueTypeFont) (p : ptr) (v : option ptr)
  : option TrueTypeFont :=
  e ← deref f p; Some (store f p (set_next e v)).

Definition assign_prev (f : TrueTypeFont) (p : ptr) (v : option ptr)
  : option TrueTypeFont :=
  e ← deref f p; Some (store f p (set_prev e v)).

(** [malloc] of a [StringCacheEntry]: an address that is not in use. *)
Definition malloc_entry (f : TrueTypeFont) : ptr :=
  fresh (dom (string_entries f)).

Definition gr_ttf_string_cache_peek (font : TrueTypeFont) (text : list Z)
    (max_width : Z) : option ptr :=
  string_cache font !! mkStringKey text max_width.

(** The key and the bitmap are owned by the entry and kept by value in the
    model, so what is left of the four [free]s is the one of the entry. *)
Definition gr_ttf_freeStringCache (f : TrueTypeFont) (k : StringCacheKey)
    (e : ptr) : option TrueTypeFont :=
  _ ← deref f e;
  Some (set_entries f (delete e (string_entries f))).

(** One turn of the loop [for(i = 0; i < STRING_CACHE_TRUNCATE_ENTRIES; ++i)]:
    the entry at the head is unlinked, taken out of the hashmap and freed. *)
Definition truncate_one (font : TrueTypeFont) : option TrueTypeFont :=
  ent ← string_cache_head font;
  e ← deref font ent;
  let font := set_head font (next e) in
  hd ← string_cache_head font;
  font ← assign_prev font hd None;
  e ← deref font ent;
  let font := set_string_cache font (delete (key e) (string_cache font)) in
  gr_ttf_freeStringCache font (key e) ent.

(** The loop, with [n] turns left. *)
Fixpoint truncate_loop (n : nat) (font : TrueTypeFont) : option TrueTypeFont :=
  match n with
  | O => Some font
  | S n' => font ← truncate_one font; truncate_loop n' font
  end.

(** The new entry [res] is linked behind the tail (lines 487 to 494). *)
Definition string_cache_append (font : TrueTypeFont) (res : ptr)
  : option TrueTypeFont :=
  font ←
    match string_cache_tail font with
    | Some tl =>
        font ← assign_prev font res (Some tl);
        e ← deref font res;
        pv ← prev e;
        assign_next font pv (Some res)
    | None => Some (set_head font (Some res))
    end;
  Some (set_tail font (Some res)).

(** The entry [res], which has a successor, is unlinked and linked behind
    the tail (lines 502 to 513). *)
Definition string_cache_move_to_tail (font : TrueTypeFont) (res : ptr)
  : option TrueTypeFont :=
  e ← deref font res;
  font ←
    match prev e with
    | Some pv => assign_next font pv (next e)
    | None => Some font
    end;
  e ← deref font res;
  nx ← next e;
  font ← assign_prev font nx (prev e);
  e ← deref font res;
  let font :=
    match prev e with
    | None => set_head font (next e)
    | Some _ => font
    end in
  font ← assign_next font res None;
  font ← assign_prev font res (string_cache_tail font);
  e ← deref font res;
  pv ← prev e;
  font ← assign_next font pv (Some res);
  Some (set_tail font (Some res)).

Definition gr_ttf_string_cache_get (font : TrueTypeFont) (text : list Z)
    (max_width : Z) : option (TrueTypeFont * option ptr) :=
  let k := mkStringKey text max_width in
  match string_cache font !! k with
  | None =>
      let res := malloc_entry font in
      '(font, surf, len) ← gr_ttf_render_text font zero_surface text max_width;
      if len <? 0 then Some (font, None)
      else
        let font := store font res (mkStringEntry surf len k None None) in
        font ← string_cache_append font res;
        let font := set_string_cache font (<[k := res]> (string_cache font)) in
        Some (font, Some res)
  | Some res =>
      e ← deref font res;
      match next e with
      | None => Some (font, Some res)
      | Some _ =>
          (* move this entry to the tail of the linked list *)
          font ← string_cache_move_to_tail font res;
          (* truncate old entries *)
          font ←
            (if Z.of_nat (size (string_cache font)) >=? STRING_CACHE_MAX_ENTRIES
             then truncate_loop (Z.to_nat STRING_CACHE_TRUNCATE_ENTRIES) font
             else Some font);
          Some (font, Some res)
      end
  end.

(** ** The measuring and drawing entry points *)

Definition gr_ttf_measureEx (s : list Z) (font : TrueTypeFont)
  : option (TrueTypeFont * Z) :=
  '(font, e) ← gr_ttf_string_cache_get font s (-1);
  match e with
  | Some p => ent ← deref font p; Some (font, width (surface ent))
  | None => Some (font, -1)
  end.

(** The body of the loop of [gr_ttf_maxExW] after [char_idx] is known. *)
Definition maxExW_body (max_width : Z) (f : TrueTypeFont)
    (max_len total_w prev_idx : Z) (char_idx : Z)
    (continue : TrueTypeFont → Z → Z → Z → option (TrueTypeFont * Z))
  : option (TrueTypeFont * Z) :=
  let total_w :=
    if kerning_applies f prev_idx char_idx
    then total_w + Z.shiftr (FT_Get_Kerning (face f) prev_idx char_idx) 6
    else total_w in
  let prev_idx := char_idx in
  if total_w >? max_width then Some (f, max_len)
  else
    let '(f, ent) := gr_ttf_glyph_cache_get f char_idx in
    match ent with
    | None => continue f (max_len + 1) total_w prev_idx
    | Some ent =>
        continue f (max_len + 1)
          (total_w + Z.shiftr (advance_x (glyph ent)) 16) prev_idx
    end.

(** The loop of [gr_ttf_maxExW]; it answers the font and [max_len]. *)
Fixpoint maxExW_loop (buf : list Z) (max_width : Z) (f : TrueTypeFont)
    (max_len total_w prev_idx : Z) : option (TrueTypeFont * Z) :=
  match buf with
  | [] => None
  | c :: rest =>
      let c := uchar c in
      if c =? 0 then Some (f, max_len)
      else if c <? 0x80 then
        maxExW_body max_width f max_len total_w prev_idx
          (FT_Get_Char_Index (face f) c) (maxExW_loop rest max_width)
      else
        match rest with
        | c2 :: c3 :: rest' =>
            maxExW_body max_width f max_len total_w prev_idx
              (FT_Get_Char_Index (face f)
                 (utf8_to_unicode c (uchar c2) (uchar c3)))
              (maxExW_loop rest' max_width)
        | _ => None
        end
  end.

Definition gr_ttf_maxExW (s : list Z) (font : TrueTypeFont) (max_width : Z)
  : option (TrueTypeFont * Z) :=
  match gr_ttf_string_cache_peek font s max_width with
  | Some e =>
      ent ← deref font e;
      Some (font, rendered_len ent)
  | None =>
      '(f, max_len) ← maxExW_loop (s ++ [0]) max_width font 0 0 0;
      Some (f, if max_len >? 0 then max_len - 1 else 0)
  end.

(** The calls made on the [GGLContext]. *)
Inductive GGL_call :=
  | bindTexture (s : GGLSurface)
  | texEnvi (target pname param : Z)
  | texGeni (coord pname param : Z)
  | enable (cap : Z)
  | texCoord2i (s t : Z)
  | recti (l t r b : Z).

Definition GGL_TEXTURE_ENV : Z := 0x2300.
Definition GGL_TEXTURE_ENV_MODE : Z := 0x2200.
Definition GGL_REPLACE : Z := 0x1E01.
Definition GGL_S : Z := 0x2000.
Definition GGL_T : Z := 0x2001.
Definition GGL_TEXTURE_GEN_MODE : Z := 0x2500.
Definition GGL_ONE_TO_ONE : Z := 0x9000.
Definition GGL_TEXTURE_2D : Z := 0x0DE1.

(** [gr_ttf_textExWH]: the font afterwards, the calls made on the context
    and the value returned. *)
Definition gr_ttf_textExWH (x y : Z) (s : list Z) (font : TrueTypeFont)
    (max_width max_height : Z) : option (TrueTypeFont * list GGL_call * Z) :=
  (* not actually max width, but max_width + x *)
  let bounded := negb (max_width =? -1) in
  let max_width := if bounded then max_width - x else max_width in
  if bounded && (max_width <=? 0) then Some (font, [], 0)
  else
    '(font, e) ← gr_ttf_string_cache_get font s max_width;
    match e with
    | None => Some (font, [], -1)
    | Some p =>
        e ← deref font p;
        let y_bottom := y + height (surface e) in
        let res := rendered_len e in
        let clip := negb (max_height =? -1) && (max_height <? y_bottom) in
        let y_bottom := if clip then max_height else y_bottom in
        if clip && (y_bottom <=? y) then Some (font, [], 0)
        else
          Some (font,
                [ bindTexture (surface e);
                  texEnvi GGL_TEXTURE_ENV GGL_TEXTURE_ENV_MODE GGL_REPLACE;
                  texGeni GGL_S GGL_TEXTURE_GEN_MODE GGL_ONE_TO_ONE;
                  texGeni GGL_T GGL_TEXTURE_GEN_MODE GGL_ONE_TO_ONE;
                  enable GGL_TEXTURE_2D;
                  texCoord2i (- x) (- y);
                  recti x y (x + width (surface e)) y_bottom ],
                res)
    end.

(** ** Font registry *)

(** What FreeType answers when a face is opened: [FT_Init_FreeType] is an
    error code, [FT_New_Face filename] the opened face or [None],
    [FT_Set_Char_Size face width height hres vres] the sized face or
    [None]. *)
Record FreeType := mkFreeType {
  FT_Init_FreeType : Z;
  FT_New_Face : list Z → option FT_Face;
  FT_Set_Char_Size : FT_Face → Z → Z → Z → Z → option FT_Face
}.

(** The calls that open and close FreeType objects, as they are made. *)
Inductive FT_call :=
  | Call_Init_FreeType
  | Call_New_Face (filename : list Z)
  | Call_Done_Face (fc : FT_Face)
  | Call_Done_Glyph (g : FT_BitmapGlyph).

(** [font_data] together with the [TrueTypeFont] objects on the heap and
    the record of the FreeType calls. *)
Record FontData := mkFontData {
  ft_library : bool;
  fonts : option (gmap TrueTypeFontKey ptr);
  heap : gmap ptr TrueTypeFont;
  ft_calls : list FT_call
}.

Definition font_data_init : FontData := mkFontData false None ∅ [].

Definition hashmapGet_fonts (fd : FontData) (k : TrueTypeFontKey) : option ptr :=
  match fonts fd with
  | Some m => m !! k
  | None => None
  end.

Definition gr_ttf_loadFont (ft : FreeType) (fd : FontData)
    (filename : list Z) (size dpi : Z) : option (FontData * option ptr) :=
  let k := mkFontKey size dpi filename in
  match hashmapGet_fonts fd k with
  | Some res =>
      d ← heap fd !! res;
      Some (mkFontData (ft_library fd) (fonts fd)
              (<[res := set_refcount d (refcount d + 1)]> (heap fd))
              (ft_calls fd),
            Some res)
  | None =>
      let init := negb (ft_library fd) in
      let calls :=
        if init then ft_calls fd ++ [Call_Init_FreeType] else ft_calls fd in
      if init && negb (FT_Init_FreeType ft =? 0)
      then Some (mkFontData false (fonts fd) (heap fd) calls, None)
      else
        let calls := calls ++ [Call_New_Face filename] in
        match FT_New_Face ft filename with
        | None => Some (mkFontData true (fonts fd) (heap fd) calls, None)
        | Some face =>
            match FT_Set_Char_Size ft face 0 (size * 16) dpi dpi with
            | None =>
                Some (mkFontData true (fonts fd) (heap fd)
                        (calls ++ [Call_Done_Face face]), None)
            | Some face =>
                let res := fresh (dom (heap fd)) in
                let d :=
                  mkFont FONT_TYPE_TTF 1 size dpi (-1) (-1) face ∅ ∅ None None
                    k ∅ in
                let m := match fonts fd with Some m => m | None => ∅ end in
                Some (mkFontData true (Some (<[k := res]> m))
                        (<[res := d]> (heap fd)) calls,
                      Some res)
            end
        end
  end.

(** [hashmapForEach(d->string_cache, gr_ttf_freeStringCache, NULL)]. *)
Definition free_string_cache_all (d : TrueTypeFont) : option TrueTypeFont :=
  foldr (λ kv acc, d ← acc; gr_ttf_freeStringCache d kv.1 kv.2) (Some d)
    (map_to_list (string_cache d)).

(** [hashmapForEach(d->glyph_cache, gr_ttf_freeFontCache, NULL)]: one
    [FT_Done_Glyph] for every entry. *)
Definition free_glyph_cache_all (d : TrueTypeFont) : list FT_call :=
  (λ kv, Call_Done_Glyph (glyph kv.2)) <$> map_to_list (glyph_cache d).

(** What [gr_ttf_freeFont] does to [d] between [FT_Done_Face] and
    [free(d)]: the state of [d] when it is freed and the FreeType calls. *)
Definition gr_ttf_freeFont_caches (d : TrueTypeFont)
  : option (TrueTypeFont * list FT_call) :=
  d ← free_string_cache_all d;
  let d := set_string_cache d ∅ in
  let calls := free_glyph_cache_all d in
  let d := set_glyph_cache d ∅ in
  Some (d, calls).

Definition gr_ttf_freeFont (fd : FontData) (font : ptr) : option FontData :=
  d ← heap fd !! font;
  let d := set_refcount d (refcount d - 1) in
  if refcount d =? 0 then
    m ← fonts fd;
    let m := delete (font_key d) m in
    let fonts' := if Z.of_nat (size m) =? 0 then None else Some m in
    '(_, calls) ← gr_ttf_freeFont_caches d;
    Some (mkFontData (ft_library fd) fonts' (delete font (heap fd))
            (ft_calls fd ++ [Call_Done_Face (face d)] ++ calls))
  else
    Some (mkFontData (ft_library fd) (fonts fd) (<[font := d]> (heap fd))
            (ft_calls fd)).

(** ** Reference definitions for the shaper *)

(** The decoder in the words of the specification: the string is cut into
    groups of bytes, one byte when the leading byte is below 0x80 and three
    bytes otherwise; a 0 byte in leading position ends the string.  [None]
    when a three-byte group is cut short by the end of the string. *)
Fixpoint decode_groups (s : list Z) : option (list (list Z)) :=
  match s with
  | [] => Some []
  | c :: rest =>
      if uchar c =? 0 then Some []
      else if uchar c <? 0x80 then g ← decode_groups rest; Some ([c] :: g)
      else
        match rest with
        | c2 :: c3 :: rest' => g ← decode_groups rest'; Some ([c; c2; c3] :: g)
        | _ => None
        end
  end.

(** The code point of a group. *)
Definition code_point (g : list Z) : Z :=
  match g with
  | [c] => uchar c
  | [c1; c2; c3] =>
      Z.land
        (Z.lor (Z.lor (Z.shiftl (Z.land (uchar c1) 0x1F) 12)
                      (Z.shiftl (Z.land (uchar c2) 0x3F) 6))
               (Z.land (uchar c3) 0x3F))
        0xFFFF
  | _ => 0
  end.

(** The two loops over glyph indices instead of bytes. *)
Fixpoint render_measure_glyphs (idxs : list Z) (max_width : Z)
    (f : TrueTypeFont) (max_len total_w prev_idx : Z) (char_idxs : list Z)
  : option measure_state :=
  match idxs with
  | [] => Some (f, max_len, total_w, char_idxs)
  | char_idx :: rest =>
      render_measure_body max_width f max_len total_w prev_idx char_idxs
        char_idx (render_measure_glyphs rest max_width)
  end.

Fixpoint maxExW_glyphs (idxs : list Z) (max_width : Z) (f : TrueTypeFont)
    (max_len total_w prev_idx : Z) : option (TrueTypeFont * Z) :=
  match idxs with
  | [] => Some (f, max_len)
  | char_idx :: rest =>
      maxExW_body max_width f max_len total_w prev_idx char_idx
        (maxExW_glyphs rest max_width)
  end.

(** The glyph indices of a decoded string. *)
Definition glyph_indices (fc : FT_Face) (groups : list (list Z)) : list Z :=
  (λ g, FT_Get_Char_Index fc (code_point g)) <$> groups.

(** What "the string [s] is decoded as the groups [g]" means for the two
    shaping loops: every group is one byte below 0x80 or three bytes led by
    a byte from 0x80 on, the groups are consecutive pieces of [s], a
    three-byte group is packed by [utf8_to_unicode] into the 16 bits of
    [code_point], and both loops do on [s] what they do on the glyph
    indices of the code points of [g]. *)
Definition one_byte_group (grp : list Z) : Prop :=
  ∃ c, grp = [c] ∧ 0 < uchar c < 0x80.

Definition three_byte_group (grp : list Z) : Prop :=
  ∃ c c2 c3, grp = [c; c2; c3] ∧ 0x80 ≤ uchar c
    ∧ code_point grp = utf8_to_unicode (uchar c) (uchar c2) (uchar c3).

Definition shaped_by_groups (s : list Z) (g : list (list Z)) : Prop :=
  Forall (λ grp, one_byte_group grp ∨ three_byte_group grp) g
  ∧ concat g `prefix_of` s
  ∧ (Forall (λ c, uchar c ≠ 0) s → concat g = s)
  ∧ (∀ W f ml tw prev cis,
       render_measure_loop (s ++ [0]) W f ml tw prev cis
       = render_measure_glyphs (glyph_indices (face f) g) W f ml tw prev cis)
  ∧ (∀ W f ml tw prev,
       maxExW_loop (s ++ [0]) W f ml tw prev
       = maxExW_glyphs (glyph_indices (face f) g) W f ml tw prev).

(** The string that is one byte from 0x80 on: decoding it reads behind the
    terminating 0. *)
Definition lone_lead_byte (s : list Z) : bool :=
  match s with
  | [c] => 0x80 <=? uchar c
  | _ => false
  end.

(** ** A small font for the examples *)

(** A glyph 10 pixels wide and 2 pixels high with an empty bitmap. *)
Definition example_glyph : FT_BitmapGlyph :=
  mkGlyph (10 * 65536) 0 0 (mkBitmap 0 0 0 [] FT_PIXEL_MODE_GRAY)
    (mkBBox 0 0 8 2).

(** A face without kerning in which every character has this glyph. *)
Definition example_face : FT_Face :=
  mkFace (λ c, c) (λ _ _, Some example_glyph) (λ slot, Some slot) false
    (λ _ _, 0).

(** The font as [gr_ttf_loadFont] creates it, at size 4. *)
Definition example_font : TrueTypeFont :=
  mkFont FONT_TYPE_TTF 1 4 96 (-1) (-1) example_face ∅ ∅ None None
    (mkFontKey 4 96 [102]) ∅.

(** ** The recency list as a sequence *)

(** What an entry carries apart from its two links. *)
Definition payload : Type := StringCacheKey * Z * GGLSurface.

Definition entry_payload (e : StringCacheEntry) : payload :=
  (key e, rendered_len e, surface e).

Definition item_key (it : ptr * payload) : StringCacheKey := it.2.1.1.
Definition item_len (it : ptr * payload) : Z := it.2.1.2.

Definition hd_or (l : list ptr) (d : option ptr) : option ptr :=
  match l with
  | [] => d
  | p :: _ => Some p
  end.

Definition last_or (l : list ptr) (d : option ptr) : option ptr :=
  match last l with
  | Some q => Some q
  | None => d
  end.

(** [dseg h pv l nx]: in the store [h] the entries at the addresses [l] are
    chained in this order by their [next] and [prev] links, the first one
    has [prev = pv] and the last one [next = nx]. *)
Fixpoint dseg (h : gmap ptr StringCacheEntry) (pv : option ptr) (l : list ptr)
    (nx : option ptr) : Prop :=
  match l with
  | [] => True
  | p :: l' =>
      ∃ e, h !! p = Some e ∧ prev e = pv ∧ next e = hd_or l' nx
           ∧ dseg h (Some p) l' nx
  end.

(** [string_cache_repr f items]: the string cache of [f] holds exactly
    [items], from the head of the recency list (first) to its tail (last);
    an item is the address of an entry and what the entry carries. *)
Record string_cache_repr (f : TrueTypeFont) (items : list (ptr * payload))
  : Prop := mkRepr {
  repr_nodup : NoDup items.*1;
  repr_keys_nodup : NoDup (item_key <$> items);
  repr_links : dseg (string_entries f) None items.*1 None;
  repr_payload : entry_payload <$> string_entries f = list_to_map items;
  repr_map :
    string_cache f = list_to_map ((λ it, (item_key it, it.1)) <$> items);
  repr_head : string_cache_head f = head items.*1;
  repr_tail : string_cache_tail f = last items.*1
}.

(** The keys of the cache in recency order, least recently used first. *)
Definition lru_keys (items : list (ptr * payload)) : list StringCacheKey :=
  item_key <$> items.


(** What the operations on the string cache leave alone. *)
Definition same_shaper (f f' : TrueTypeFont) : Prop :=
  glyph_cache f' = glyph_cache f ∧ max_height f' = max_height f
  ∧ base f' = base f ∧ face f' = face f ∧ font_size f' = font_size f.

(** What the shaper leaves alone. *)
Definition same_strings (f f' : TrueTypeFont) : Prop :=
  string_cache f' = string_cache f
  ∧ string_cache_head f' = string_cache_head f
  ∧ string_cache_tail f' = string_cache_tail f
  ∧ string_entries f' = string_entries f
  ∧ face f' = face f ∧ font_size f' = font_size f.


(** [gr_ttf_string_cache_get] for every key of a list in turn: the font
    afterwards and the pointers returned. *)
Fixpoint string_cache_get_all (f : TrueTypeFont) (ks : list StringCacheKey)
  : option (TrueTypeFont * list (option ptr)) :=
  match ks with
  | [] => Some (f, [])
  | k :: ks' =>
      '(f1, r) ← gr_ttf_string_cache_get f (text k) (max_width k);
      '(f2, rs) ← string_cache_get_all f1 ks';
      Some (f2, r :: rs)
  end.


(** The example font after the text "a" was rendered, and then after the
    text "b" was rendered too, and the items of its cache. *)
Definition example_font_a : TrueTypeFont :=
  match gr_ttf_string_cache_get example_font [97] (-1) with
  | Some (f, _) => f
  | None => example_font
  end.




(** ** Fonts with a given string cache *)

(** The entries of a recency list [items] as they lie in the store: every
    entry points to its neighbours, the first one has [prev = pv]. *)
Fixpoint build_entries (pv : option ptr) (items : list (ptr * payload))
  : gmap ptr StringCacheEntry :=
  match items with
  | [] => ∅
  | it :: rest =>
      <[it.1 := mkStringEntry it.2.2 it.2.1.2 it.2.1.1 pv (head rest.*1)]>
        (build_entries (Some it.1) rest)
  end.

(** The font [f] with its string cache replaced by one that holds [items]:
    used to write down fonts whose cache is in a given state. *)
Definition with_string_cache (f : TrueTypeFont) (items : list (ptr * payload))
  : TrueTypeFont :=
  mkFont (type f) (refcount f) (font_size f) (dpi f) (max_height f) (base f)
    (face f) (glyph_cache f)
    (list_to_map ((λ it, (item_key it, it.1)) <$> items))
    (head items.*1) (last items.*1) (font_key f) (build_entries None items).

(** [n] items with the addresses 1 to [n] and the texts [[1]] to [[n]]
    (empty surfaces). *)
Definition numbered_items (n : nat) : list (ptr * payload) :=
  (λ i : nat,
     (Pos.of_succ_nat i, (mkStringKey [Z.of_nat (S i)] (-1), 1, zero_surface)))
    <$> seq 0 n.

(** What shaping leaves alone in a font whose metrics are known, and what
    it only adds to: the glyph cache keeps every entry it has. *)
Definition glyphs_kept (f f' : TrueTypeFont) : Prop :=
  glyph_cache f ⊆ glyph_cache f'
  ∧ face f' = face f ∧ font_size f' = font_size f
  ∧ max_height f' = max_height f ∧ base f' = base f.

(** What the loop keeps, whatever the string: the glyph cache grows,
    [max_len] grows by less than the bytes of the array, [char_idxs] grows
    by at least as much, and a bounded width is never exceeded. *)
Definition measure_inv (buf : list Z) (W : Z) (f : TrueTypeFont)
    (ml tw : Z) (cis : list Z) (st : measure_state) : Prop :=
  glyphs_kept f st.1.1.1
  ∧ ml ≤ st.1.1.2 ∧ st.1.1.2 - ml < Z.of_nat (length buf)
  ∧ st.1.1.2 - ml ≤ Z.of_nat (length st.2) - Z.of_nat (length cis)
  ∧ (W ≠ -1 → tw ≤ W → st.1.2 ≤ W).

(** Two surfaces of the same shape: only the bytes may differ. *)
Definition same_shape (s s' : GGLSurface) : Prop :=
  version s' = version s ∧ width s' = width s ∧ height s' = height s
  ∧ stride s' = stride s ∧ format s' = format s
  ∧ length (data s') = length (data s).

(** The bounding box [gr_ttf_getMaxFontHeight] reads for the character
    [c]: the one of the cached glyph, or else the one of a glyph loaded
    for this purpose, or none when FreeType fails. *)
Definition probe_bbox (f : TrueTypeFont) (c : Z) : option FT_BBox :=
  let char_idx := FT_Get_Char_Index (face f) c in
  match gr_ttf_glyph_cache_peek f char_idx with
  | Some ent => Some (bbox ent)
  | None =>
      match FT_Load_Glyph (face f) char_idx FT_LOAD_DEFAULT with
      | None => None
      | Some slot =>
          match FT_Get_Glyph (face f) slot with
          | None => None
          | Some g => Some (glyph_cbox g)
          end
      end
  end.

(** A face in which no glyph loads, and a font of size 16 on it. *)
Definition broken_face : FT_Face :=
  mkFace (λ c, c) (λ _ _, None) (λ slot, Some slot) false (λ _ _, 0).

Definition broken_font : TrueTypeFont :=
  mkFont FONT_TYPE_TTF 1 16 96 (-1) (-1) broken_face ∅ ∅ None None
    (mkFontKey 16 96 [102]) ∅.

(** The example font after [gr_ttf_render_text] shaped the text "a". *)
Definition example_font_rendered : TrueTypeFont :=
  match gr_ttf_render_text example_font zero_surface [97] 100 with
  | Some (f, _, _) => f
  | None => example_font
  end.

(* END OF DEFINITIONS *)

(** * Properties *)

(** ** The glyph cache *)

Lemma glyph_cache_get_face font char_index :
  face (gr_ttf_glyph_cache_get font char_index).1 = face font.
Proof.
  unfold gr_ttf_glyph_cache_get.
  repeat case_match; reflexivity.
Qed.

Lemma glyph_cache_get_fields font char_index :
  let f' := (gr_ttf_glyph_cache_get font char_index).1 in
  max_height f' = max_height font ∧ base f' = base font
  ∧ font_size f' = font_size font
  ∧ string_cache f' = string_cache font
  ∧ string_cache_head f' = string_cache_head font
  ∧ string_cache_tail f' = string_cache_tail font
  ∧ string_entries f' = string_entries font
  ∧ refcount f' = refcount font ∧ font_key f' = font_key font.
Proof.
  unfold gr_ttf_glyph_cache_get.
  repeat case_match; simpl; repeat split; reflexivity.
Qed.

(** ** Decoding *)

Lemma to_ushort_bits z n :
  0 ≤ n → Z.testbit (to_ushort z) n = Z.testbit z n && Z.testbit 0xFFFF n.
Proof. intros _. unfold to_ushort. apply Z.land_spec. Qed.

Lemma utf8_to_unicode_formula c1 c2 c3 :
  utf8_to_unicode c1 c2 c3 =
  Z.land
    (Z.lor (Z.lor (Z.shiftl (Z.land c1 0x1F) 12) (Z.shiftl (Z.land c2 0x3F) 6))
           (Z.land c3 0x3F))
    0xFFFF.
Proof.
  unfold utf8_to_unicode, to_ushort.
  apply Z.bits_inj'. intros n Hn.
  repeat first [rewrite Z.land_spec | rewrite Z.lor_spec].
  destruct (Z.testbit 65535 n); rewrite ?andb_true_r, ?andb_false_r, ?orb_false_r;
    reflexivity.
Qed.

Lemma utf8_to_unicode_range c1 c2 c3 : 0 ≤ utf8_to_unicode c1 c2 c3 < 65536.
Proof.
  rewrite utf8_to_unicode_formula.
  change 65535 with (Z.ones 16). rewrite Z.land_ones by lia.
  change (2 ^ 16) with 65536. apply Z.mod_pos_bound. lia.
Qed.

Lemma utf8_code_point c1 c2 c3 :
  utf8_to_unicode (uchar c1) (uchar c2) (uchar c3) = code_point [c1; c2; c3].
Proof. apply utf8_to_unicode_formula. Qed.

Lemma render_measure_body_ext W f ml tw prev cis idx k1 k2 :
  (∀ f' a b c d, face f' = face f → k1 f' a b c d = k2 f' a b c d) →
  render_measure_body W f ml tw prev cis idx k1
  = render_measure_body W f ml tw prev cis idx k2.
Proof.
  intros Hk. unfold render_measure_body.
  pose proof (glyph_cache_get_face f idx) as Hf.
  destruct (gr_ttf_glyph_cache_get f idx) as [f' [ent|]]; simpl in Hf.
  - case_match; [reflexivity | by apply Hk].
  - by apply Hk.
Qed.

Lemma maxExW_body_ext W f ml tw prev idx k1 k2 :
  (∀ f' a b c, face f' = face f → k1 f' a b c = k2 f' a b c) →
  maxExW_body W f ml tw prev idx k1 = maxExW_body W f ml tw prev idx k2.
Proof.
  intros Hk. unfold maxExW_body.
  case_match; [reflexivity|].
  pose proof (glyph_cache_get_face f idx) as Hf.
  destruct (gr_ttf_glyph_cache_get f idx) as [f' [ent|]]; simpl in Hf;
    by apply Hk.
Qed.

(** Induction over a string in steps of one or three bytes. *)
Lemma decode_groups_ind (P : list Z → list (list Z) → Prop) :
  P [] [] →
  (∀ c rest, uchar c = 0 → P (c :: rest) []) →
  (∀ c rest g, uchar c ≠ 0 → uchar c < 0x80 →
     decode_groups rest = Some g → P rest g → P (c :: rest) ([c] :: g)) →
  (∀ c c2 c3 rest g, uchar c ≠ 0 → 0x80 ≤ uchar c →
     decode_groups rest = Some g → P rest g →
     P (c :: c2 :: c3 :: rest) ([c; c2; c3] :: g)) →
  ∀ s g, decode_groups s = Some g → P s g.
Proof.
  intros H0 Hz H1 H3 s.
  remember (length s) as n eqn:Hn. revert s Hn.
  induction (lt_wf n) as [n _ IH].
  intros s Hn g Hg. destruct s as [|c rest]; simpl in Hg.
  { by simplify_eq. }
  destruct (Z.eqb_spec (uchar c) 0) as [Hc|Hc].
  { simplify_eq. by apply Hz. }
  destruct (Z.ltb_spec (uchar c) 128) as [Hlt|Hge].
  - destruct (decode_groups rest) as [g'|] eqn:Hrest; simplify_eq/=.
    apply H1; try done.
    eapply (IH (length rest)); [simpl in *; lia|reflexivity|done].
  - destruct rest as [|c2 [|c3 rest']]; try done.
    destruct (decode_groups rest') as [g'|] eqn:Hrest; simplify_eq/=.
    apply H3; try done.
    eapply (IH (length rest')); [simpl in *; lia|reflexivity|done].
Qed.

Lemma render_measure_loop_decode s g :
  decode_groups s = Some g →
  ∀ W f ml tw prev cis,
    render_measure_loop (s ++ [0]) W f ml tw prev cis
    = render_measure_glyphs (glyph_indices (face f) g) W f ml tw prev cis.
Proof.
  intros Hg. revert s g Hg.
  apply (decode_groups_ind (λ s g, ∀ W f ml tw prev cis,
    render_measure_loop (s ++ [0]) W f ml tw prev cis
    = render_measure_glyphs (glyph_indices (face f) g) W f ml tw prev cis)).
  - done.
  - intros c rest Hc W f ml tw prev cis. simpl. by rewrite Hc.
  - intros c rest g Hc Hlt _ IH W f ml tw prev cis. simpl.
    destruct (Z.eqb_spec (uchar c) 0); [done|].
    destruct (Z.ltb_spec (uchar c) 128); [|lia].
    apply render_measure_body_ext. intros f' a b c' d Hf.
    rewrite IH. by rewrite Hf.
  - intros c c2 c3 rest g Hc Hge _ IH W f ml tw prev cis. simpl.
    destruct (Z.eqb_spec (uchar c) 0); [done|].
    destruct (Z.ltb_spec (uchar c) 128); [lia|].
    rewrite utf8_to_unicode_formula.
    apply render_measure_body_ext. intros f' a b c' d Hf.
    rewrite IH. by rewrite Hf.
Qed.

Lemma maxExW_loop_decode s g :
  decode_groups s = Some g →
  ∀ W f ml tw prev,
    maxExW_loop (s ++ [0]) W f ml tw prev
    = maxExW_glyphs (glyph_indices (face f) g) W f ml tw prev.
Proof.
  intros Hg. revert s g Hg.
  apply (decode_groups_ind (λ s g, ∀ W f ml tw prev,
    maxExW_loop (s ++ [0]) W f ml tw prev
    = maxExW_glyphs (glyph_indices (face f) g) W f ml tw prev)).
  - done.
  - intros c rest Hc W f ml tw prev. simpl. by rewrite Hc.
  - intros c rest g Hc Hlt _ IH W f ml tw prev. simpl.
    destruct (Z.eqb_spec (uchar c) 0); [done|].
    destruct (Z.ltb_spec (uchar c) 128); [|lia].
    apply maxExW_body_ext. intros f' a b c' Hf.
    rewrite IH. by rewrite Hf.
  - intros c c2 c3 rest g Hc Hge _ IH W f ml tw prev. simpl.
    destruct (Z.eqb_spec (uchar c) 0); [done|].
    destruct (Z.ltb_spec (uchar c) 128); [lia|].
    rewrite utf8_to_unicode_formula.
    apply maxExW_body_ext. intros f' a b c' Hf.
    rewrite IH. by rewrite Hf.
Qed.

(** The groups are the string cut into pieces of one or three bytes. *)
Lemma decode_groups_shape s g :
  decode_groups s = Some g →
  Forall (λ grp, ∃ c, (grp = [c] ∧ 0 < uchar c < 0x80)
                 ∨ (∃ c2 c3, grp = [c; c2; c3] ∧ 0x80 ≤ uchar c)) g
  ∧ concat g `prefix_of` s
  ∧ (Forall (λ c, uchar c ≠ 0) s → concat g = s).
Proof.
  revert s g.
  apply (decode_groups_ind (λ s g,
    Forall (λ grp, ∃ c, (grp = [c] ∧ 0 < uchar c < 0x80)
                 ∨ (∃ c2 c3, grp = [c; c2; c3] ∧ 0x80 ≤ uchar c)) g
    ∧ concat g `prefix_of` s
    ∧ (Forall (λ c, uchar c ≠ 0) s → concat g = s))).
  - split_and!; [constructor|done|done].
  - intros c rest Hc. split_and!; [constructor|apply prefix_nil|].
    intros Hall. by inversion Hall.
  - intros c rest g Hc Hlt _ (IH1 & IH2 & IH3). split_and!.
    + constructor; [|done]. exists c. left. split; [done|].
      unfold uchar in *. pose proof (Z.mod_pos_bound c 256). lia.
    + simpl. by apply prefix_cons.
    + intros Hall. inversion Hall; subst. simpl. f_equal. by apply IH3.
  - intros c c2 c3 rest g Hc Hge _ (IH1 & IH2 & IH3). split_and!.
    + constructor; [|done]. exists c. right. by exists c2, c3.
    + simpl. by do 3 apply prefix_cons.
    + intros Hall. inversion Hall as [|? ? ? Hall2]; subst.
      inversion Hall2 as [|? ? ? Hall3]; subst.
      inversion Hall3; subst. simpl. do 3 f_equal. by apply IH3.
Qed.

(** C7. Both shaping loops ([gr_ttf_render_text] and [gr_ttf_maxExW]) cut
    the string into groups of exactly one byte (leading byte below 0x80,
    used as the code point as it is) or exactly three bytes (leading byte
    from 0x80 on, packed by [utf8_to_unicode] into the 16-bit value of
    ((c1 & 0x1F) << 12) | ((c2 & 0x3F) << 6) | (c3 & 0x3F)), and look up the
    glyph index of each code point; no group has another length. *)
Theorem shaping_decodes_one_or_three_bytes s g :
  decode_groups s = Some g → shaped_by_groups s g.
Proof.
  intros Hg. destruct (decode_groups_shape s g Hg) as (Hshape & Hpre & Hcat).
  split_and!; try done.
  - eapply Forall_impl; [exact Hshape|]. intros grp [c [[-> Hc]|(c2 & c3 & -> & Hc)]].
    + left. by exists c.
    + right. exists c, c2, c3. split_and!; [done|done|].
      symmetry. apply utf8_code_point.
  - by apply render_measure_loop_decode.
  - by apply maxExW_loop_decode.
Qed.

Lemma shaping_decodes_one_or_three_bytes_witness :
  decode_groups [97; 228; 184; 173] = Some [[97]; [228; 184; 173]]
  ∧ shaped_by_groups [97; 228; 184; 173] [[97]; [228; 184; 173]].
Proof.
  split; [reflexivity|].
  apply (shaping_decodes_one_or_three_bytes [97; 228; 184; 173]).
  reflexivity.
Defined.

(** ** The bounded measure *)

(** C9. When the string cache has no entry for [(s, -1)],
    [gr_ttf_maxExW s font (-1)] returns 0 whatever the string is (a string
    that is a single byte from 0x80 on aside: the C code reads behind its
    terminating 0 and has no defined result), and leaves the font as it
    is. *)
Theorem maxExW_unbounded_sentinel_is_zero s font :
  gr_ttf_string_cache_peek font s (-1) = None →
  lone_lead_byte s = false →
  gr_ttf_maxExW s font (-1) = Some (font, 0).
Proof.
  intros Hpeek Hlone. unfold gr_ttf_maxExW. rewrite Hpeek.
  assert (Hbody : ∀ idx k, maxExW_body (-1) font 0 0 0 idx k = Some (font, 0)).
  { intros idx k. unfold maxExW_body, kerning_applies. simpl.
    by rewrite andb_false_r. }
  destruct s as [|c rest]; simpl.
  { reflexivity. }
  destruct (Z.eqb_spec (uchar c) 0); [reflexivity|].
  destruct (Z.ltb_spec (uchar c) 128).
  { by rewrite Hbody. }
  destruct rest as [|c2 rest]; simpl.
  { simpl in Hlone. apply Z.leb_gt in Hlone. lia. }
  destruct rest as [|c3 rest]; simpl; by rewrite Hbody.
Qed.

Lemma maxExW_unbounded_sentinel_is_zero_witness :
  gr_ttf_string_cache_peek example_font [97; 98; 99] (-1) = None
  ∧ lone_lead_byte [97; 98; 99] = false
  ∧ gr_ttf_maxExW [97; 98; 99] example_font (-1) = Some (example_font, 0).
Proof.
  split; [reflexivity|]. split; [reflexivity|].
  apply (maxExW_unbounded_sentinel_is_zero [97; 98; 99] example_font);
    reflexivity.
Defined.

(** ** Doubly linked segments *)

Lemma dseg_ext h h' pv l nx :
  (∀ p, p ∈ l → h' !! p = h !! p) → dseg h pv l nx → dseg h' pv l nx.
Proof.
  revert pv. induction l as [|p l IH]; intros pv Hagree; simpl; [done|].
  intros (e & He & Hpv & Hnx & Hrest).
  exists e. split_and!; try done.
  - rewrite Hagree; [done|]. set_solver.
  - apply IH; [|done]. intros q Hq. apply Hagree. set_solver.
Qed.

Lemma dseg_app h pv l1 l2 nx :
  dseg h pv (l1 ++ l2) nx
  ↔ dseg h pv l1 (hd_or l2 nx) ∧ dseg h (last_or l1 pv) l2 nx.
Proof.
  revert pv. induction l1 as [|p l1 IH]; intros pv; simpl.
  { unfold last_or; simpl. tauto. }
  assert (Hlast : last_or (p :: l1) pv = last_or l1 (Some p)).
  { unfold last_or. rewrite last_cons. by destruct (last l1). }
  assert (Hhd : hd_or (l1 ++ l2) nx = hd_or l1 (hd_or l2 nx)).
  { by destruct l1. }
  rewrite Hlast, Hhd. split.
  - intros (e & He & Hpv & Hnx & Hrest). apply IH in Hrest as [H1 H2].
    split; [|done]. by exists e.
  - intros [(e & He & Hpv & Hnx & Hrest) H2].
    exists e. split_and!; try done. apply IH. done.
Qed.


(** [q->next = v] on the last entry of a segment. *)
Lemma dseg_set_last_next h pv l q nx e v :
  q ∉ l → h !! q = Some e → dseg h pv (l ++ [q]) nx →
  dseg (<[q := set_next e v]> h) pv (l ++ [q]) v.
Proof.
  intros Hq He [H1 H2]%dseg_app. apply dseg_app. split.
  - eapply dseg_ext; [|exact H1]. intros p Hp.
    rewrite lookup_insert_ne; [done|]. set_solver.
  - simpl in *. destruct H2 as (e' & He' & Hpv & _).
    assert (e' = e) as -> by congruence.
    exists (set_next e v). by rewrite lookup_insert_eq.
Qed.


(** Changing the links of an entry does not change what the store carries. *)
Lemma payload_set_next (h : gmap ptr StringCacheEntry) q e v :
  h !! q = Some e →
  entry_payload <$> <[q := set_next e v]> h = entry_payload <$> h.
Proof.
  intros He. rewrite fmap_insert. apply insert_id.
  by rewrite lookup_fmap, He.
Qed.


Lemma dseg_insert_ne (h : gmap ptr StringCacheEntry) pv l nx p e :
  p ∉ l → dseg h pv l nx → dseg (<[p := e]> h) pv l nx.
Proof.
  intros Hp. apply dseg_ext. intros q Hq.
  apply lookup_insert_ne. intros ->. done.
Qed.


Lemma keys_fst (items : list (ptr * payload)) :
  ((λ it, (item_key it, it.1)) <$> items).*1 = item_key <$> items.
Proof. by rewrite <-list_fmap_compose. Qed.

(** What the invariant says about one item. *)
Lemma repr_lookup_item f items p pl :
  string_cache_repr f items → (p, pl) ∈ items →
  ∃ e, string_entries f !! p = Some e ∧ entry_payload e = pl.
Proof.
  intros [Hnd _ _ Hpay _ _ _] Hin.
  apply (elem_of_list_to_map (M := gmap ptr)) in Hin; [|done].
  rewrite <-Hpay, lookup_fmap in Hin.
  destruct (string_entries f !! p) as [e|]; simplify_eq/=. by exists e.
Qed.


Lemma repr_cache_lookup_None f items k :
  string_cache_repr f items →
  string_cache f !! k = None ↔ k ∉ lru_keys items.
Proof.
  intros [_ Hkd _ _ Hmap _ _]. rewrite Hmap.
  rewrite <-not_elem_of_list_to_map, keys_fst. done.
Qed.

Lemma repr_size f items :
  string_cache_repr f items → size (string_cache f) = length items.
Proof.
  intros [_ Hkd _ _ Hmap _ _]. rewrite Hmap.
  rewrite map_size_list_to_map by (by rewrite keys_fst).
  by rewrite length_fmap.
Qed.

Lemma repr_dom f items p :
  string_cache_repr f items → p ∈ items.*1 ↔ is_Some (string_entries f !! p).
Proof.
  intros [Hnd _ _ Hpay _ _ _].
  assert (is_Some (string_entries f !! p)
          ↔ is_Some ((entry_payload <$> string_entries f) !! p)) as ->.
  { rewrite lookup_fmap. by rewrite fmap_is_Some. }
  rewrite Hpay. rewrite <-not_eq_None_Some, <-not_elem_of_list_to_map.
  split; [tauto|]. intros H. by apply dec_stable.
Qed.





(** Linking a new entry behind the tail. *)
Lemma string_cache_append_repr f items res e :
  string_cache_repr f items →
  string_entries f !! res = None →
  prev e = None → next e = None →
  key e ∉ lru_keys items →
  ∃ f1, string_cache_append (store f res e) res = Some f1
    ∧ string_cache_repr
        (set_string_cache f1 (<[key e := res]> (string_cache f1)))
        (items ++ [(res, entry_payload e)])
    ∧ same_shaper f f1.
Proof.
  intros Hrepr Hfresh Hpv Hnx Hkey.
  pose proof Hrepr as [Hnd Hkd Hlinks Hpay Hmap Hhead Htail].
  assert (Hres : res ∉ items.*1).
  { rewrite (repr_dom f items res Hrepr), Hfresh. by intros [? ?]. }
  unfold string_cache_append. csimpl. rewrite Htail.
  assert (Hnd' : NoDup (items ++ [(res, entry_payload e)]).*1).
  { rewrite fmap_app. apply NoDup_app. split_and!; [done| |apply NoDup_singleton].
    intros x Hx [->|[]%elem_of_nil]%elem_of_cons. done. }
  assert (Hkd' : NoDup (item_key <$> items ++ [(res, entry_payload e)])).
  { rewrite fmap_app. apply NoDup_app. split_and!; [done| |apply NoDup_singleton].
    intros x Hx [->|[]%elem_of_nil]%elem_of_cons. done. }
  assert (Hmap' : <[key e := res]> (string_cache f)
    = list_to_map ((λ it, (item_key it, it.1)) <$> items ++ [(res, entry_payload e)])).
  { rewrite fmap_app. csimpl. rewrite list_to_map_snoc by (by rewrite keys_fst).
    by rewrite Hmap. }
  destruct items as [|[tl pltl] items' _] using rev_ind.
  - csimpl. eexists. split; [reflexivity|]. split; [|by repeat split].
    constructor; csimpl; try done.
    + exists e. by rewrite lookup_insert_eq.
    + rewrite fmap_insert, Hpay. done.
  - assert (Hfst : (items' ++ [(tl, pltl)]).*1 = items'.*1 ++ [tl])
      by (by rewrite fmap_app).
    assert (Hfst' : ((items' ++ [(tl, pltl)]) ++ [(res, entry_payload e)]).*1
                    = (items'.*1 ++ [tl]) ++ [res])
      by (by rewrite !fmap_app).
    rewrite Hfst in *. rewrite last_snoc. csimpl.
    unfold assign_prev, deref. csimpl. rewrite lookup_insert_eq. csimpl.
    rewrite lookup_insert_eq. csimpl.
    unfold assign_next, deref. csimpl.
    assert (tl ≠ res) as Htl by set_solver.
    destruct (repr_lookup_item f _ tl pltl Hrepr) as (etl & Hetl & Hpltl);
      [set_solver|].
    rewrite !lookup_insert_ne by done. rewrite Hetl. csimpl.
    eexists. split; [reflexivity|]. split; [|by repeat split].
    apply NoDup_app in Hnd as (Hnd1 & Hnd2 & _).
    constructor; csimpl; try done; rewrite ?insert_insert_eq.
    + rewrite Hfst'. apply dseg_app. split.
      * csimpl.
        eapply dseg_set_last_next; [set_solver| |].
        -- by rewrite lookup_insert_ne.
        -- apply dseg_insert_ne; [done|done].
      * csimpl. exists (set_prev e (Some tl)).
        rewrite lookup_insert_ne by done. rewrite lookup_insert_eq.
        split_and!; try done.
        unfold last_or. by rewrite last_snoc.
    + rewrite payload_set_next by (by rewrite lookup_insert_ne).
      rewrite fmap_insert, Hpay.
      rewrite (list_to_map_snoc (items' ++ [(tl, pltl)])); [done|].
      by rewrite Hfst.
    + rewrite Hfst'. rewrite Hhead.
      by destruct (items'.*1).
    + rewrite Hfst'. by rewrite last_snoc.
Qed.







(** ** The shaper does not touch the string cache *)

Lemma same_strings_refl f : same_strings f f.
Proof. by repeat split. Qed.

Lemma same_strings_trans f1 f2 f3 :
  same_strings f1 f2 → same_strings f2 f3 → same_strings f1 f3.
Proof. intros (?&?&?&?&?&?) (?&?&?&?&?&?). repeat split; congruence. Qed.

Lemma glyph_cache_get_same_strings f idx :
  same_strings f (gr_ttf_glyph_cache_get f idx).1.
Proof.
  pose proof (glyph_cache_get_fields f idx) as H. simpl in H.
  pose proof (glyph_cache_get_face f idx).
  destruct H as (?&?&?&?&?&?&?&?&?). by repeat split.
Qed.

Lemma getMaxFontHeight_same_strings f :
  same_strings f (gr_ttf_getMaxFontHeight f).1.
Proof.
  unfold gr_ttf_getMaxFontHeight. case_match; simpl; by repeat split.
Qed.

Lemma render_measure_body_same_strings W f ml tw prev cis idx k f' ml' tw' cis' :
  (∀ f1 a b c d f2 a' b' d',
     k f1 a b c d = Some (f2, a', b', d') → same_strings f1 f2) →
  render_measure_body W f ml tw prev cis idx k = Some (f', ml', tw', cis') →
  same_strings f f'.
Proof.
  intros Hk. unfold render_measure_body.
  pose proof (glyph_cache_get_same_strings f idx) as Hg.
  destruct (gr_ttf_glyph_cache_get f idx) as [f1 [ent|]]; simpl in Hg.
  - case_match.
    + intros ?; by simplify_eq.
    + intros Hc%Hk. by eapply same_strings_trans.
  - intros Hc%Hk. by eapply same_strings_trans.
Qed.

Lemma render_measure_loop_same_strings buf W f ml tw prev cis f' ml' tw' cis' :
  render_measure_loop buf W f ml tw prev cis = Some (f', ml', tw', cis') →
  same_strings f f'.
Proof.
  remember (length buf) as n eqn:Hn. revert buf Hn f ml tw prev cis f' ml' tw' cis'.
  induction (lt_wf n) as [n _ IH]. intros buf Hn f ml tw prev cis f' ml' tw' cis'.
  destruct buf as [|c rest]; [done|]. simpl.
  case_match; [intros ?; simplify_eq; apply same_strings_refl|].
  case_match.
  - apply render_measure_body_same_strings.
    intros. eapply (IH (length rest)); [simpl in *; lia|done|done].
  - destruct rest as [|c2 [|c3 rest']]; try done.
    apply render_measure_body_same_strings.
    intros. eapply (IH (length rest')); [simpl in *; lia|done|done].
Qed.

Lemma render_composite_loop_same_strings idxs f s x prev f' s' x' :
  render_composite_loop idxs f s x prev = Some (f', s', x') →
  same_strings f f'.
Proof.
  revert f s x prev. induction idxs as [|idx idxs IH]; intros f s x prev; simpl.
  { intros ?; simplify_eq. apply same_strings_refl. }
  pose proof (glyph_cache_get_same_strings f idx) as Hg.
  destruct (gr_ttf_glyph_cache_get f idx) as [f1 [ent|]]; simpl in Hg.
  - destruct (gr_ttf_copy_glyph_to_surface _ _ _ _ _) as [[s1 r]|]; [|done].
    simpl. intros Hc%IH. by eapply same_strings_trans.
  - intros Hc%IH. by eapply same_strings_trans.
Qed.

Lemma render_text_same_strings f s0 text W f' s' len :
  gr_ttf_render_text f s0 text W = Some (f', s', len) → same_strings f f'.
Proof.
  unfold gr_ttf_render_text.
  destruct (render_measure_loop _ _ _ _ _ _ _) as [[[[f1 ml] tw] cis]|] eqn:H1;
    [|done].
  apply render_measure_loop_same_strings in H1. simpl.
  set (f2 := if max_height f1 =? -1 then (gr_ttf_getMaxFontHeight f1).1 else f1).
  assert (H2 : same_strings f1 f2).
  { unfold f2. case_match; [apply getMaxFontHeight_same_strings|apply same_strings_refl]. }
  case_match.
  { intros ?; simplify_eq. by eapply same_strings_trans. }
  destruct (malloc_zeroed _) as [d|]; [|done]. simpl.
  destruct (render_composite_loop _ _ _ _ _) as [[[f3 s3] x3]|] eqn:H3; [|done].
  apply render_composite_loop_same_strings in H3. simpl.
  intros ?; simplify_eq.
  eapply same_strings_trans; [|exact H3]. by eapply same_strings_trans.
Qed.

Lemma repr_same_strings f f' items :
  same_strings f f' → string_cache_repr f items → string_cache_repr f' items.
Proof.
  intros (H1&H2&H3&H4&_) [? ? ? ? ? ? ?].
  constructor; rewrite ?H1, ?H2, ?H3, ?H4; done.
Qed.

Lemma malloc_entry_fresh f : string_entries f !! malloc_entry f = None.
Proof.
  unfold malloc_entry. apply (not_elem_of_dom (D := gset ptr)).
  apply is_fresh.
Qed.

(** ** gr_ttf_string_cache_get on the recency list *)

(** A miss: the text is shaped; when shaping fails nothing is cached,
    otherwise the new entry becomes the tail and nothing is evicted. *)
Lemma string_cache_get_miss f items text W :
  string_cache_repr f items →
  mkStringKey text W ∉ lru_keys items →
  gr_ttf_string_cache_get f text W =
    ('(f1, surf, len) ← gr_ttf_render_text f zero_surface text W;
     if len <? 0 then Some (f1, None)
     else
       f' ← string_cache_append
               (store f1 (malloc_entry f)
                  (mkStringEntry surf len (mkStringKey text W) None None))
               (malloc_entry f);
       Some (set_string_cache f'
               (<[mkStringKey text W := malloc_entry f]> (string_cache f')),
             Some (malloc_entry f))).
Proof.
  intros Hrepr Hk. unfold gr_ttf_string_cache_get.
  apply (repr_cache_lookup_None f items _ Hrepr) in Hk. rewrite Hk.
  destruct (gr_ttf_render_text _ _ _ _) as [[[f1 surf] len]|]; [|done].
  simpl. case_match; [done|].
  by destruct (string_cache_append _ _).
Qed.

Lemma string_cache_get_miss_repr f items text W f1 surf len :
  string_cache_repr f items →
  mkStringKey text W ∉ lru_keys items →
  gr_ttf_render_text f zero_surface text W = Some (f1, surf, len) →
  0 ≤ len →
  ∃ f',
    gr_ttf_string_cache_get f text W = Some (f', Some (malloc_entry f))
    ∧ (malloc_entry f ∉ items.*1)
    ∧ string_cache_repr f'
        (items ++ [(malloc_entry f, (mkStringKey text W, len, surf))])
    ∧ same_shaper f1 f'.
Proof.
  intros Hrepr Hk Hrender Hlen.
  rewrite (string_cache_get_miss f items) by done. rewrite Hrender. simpl.
  destruct (Z.ltb_spec len 0); [lia|].
  pose proof (render_text_same_strings _ _ _ _ _ _ _ Hrender) as Hsame.
  pose proof (repr_same_strings f f1 items Hsame Hrepr) as Hrepr1.
  pose proof (malloc_entry_fresh f) as Hfresh.
  assert (Hfresh1 : string_entries f1 !! malloc_entry f = None).
  { destruct Hsame as (_&_&_&->&_). done. }
  destruct (string_cache_append_repr f1 items (malloc_entry f)
              (mkStringEntry surf len (mkStringKey text W) None None))
    as (f2 & Hf2 & Hrepr2 & Hsame2); try done.
  rewrite Hf2. simpl. eexists. split; [reflexivity|]. split_and!.
  - rewrite (repr_dom f items _ Hrepr), Hfresh. by intros [? ?].
  - exact Hrepr2.
  - destruct Hsame2 as (?&?&?&?&?). by repeat split.
Qed.

Lemma string_cache_get_miss_fail f items text W f1 surf len :
  string_cache_repr f items →
  mkStringKey text W ∉ lru_keys items →
  gr_ttf_render_text f zero_surface text W = Some (f1, surf, len) →
  len < 0 →
  gr_ttf_string_cache_get f text W = Some (f1, None)
  ∧ string_cache_repr f1 items.
Proof.
  intros Hrepr Hk Hrender Hlen.
  rewrite (string_cache_get_miss f items) by done. rewrite Hrender. simpl.
  destruct (Z.ltb_spec len 0); [|lia]. split; [done|].
  eapply repr_same_strings; [|done].
  by eapply render_text_same_strings.
Qed.


(** A hit. *)
Local Opaque STRING_CACHE_TRUNCATE_ENTRIES STRING_CACHE_MAX_ENTRIES.


Local Transparent STRING_CACHE_TRUNCATE_ENTRIES STRING_CACHE_MAX_ENTRIES.

(** ** The recency order *)











Lemma repr_empty f :
  string_cache f = ∅ → string_entries f = ∅ →
  string_cache_head f = None → string_cache_tail f = None →
  string_cache_repr f [].
Proof.
  intros H1 H2 H3 H4.
  constructor; csimpl; rewrite ?H1, ?H2, ?H3, ?H4, ?fmap_empty;
    first [done | apply NoDup_nil_2].
Qed.






(** Misses only append. *)
Lemma string_cache_get_all_misses f items ks f' rs :
  string_cache_repr f items →
  NoDup ks → (∀ k, k ∈ ks → k ∉ lru_keys items) →
  string_cache_get_all f ks = Some (f', rs) →
  Forall is_Some rs →
  ∃ new, string_cache_repr f' (items ++ new) ∧ lru_keys new = ks.
Proof.
  revert f items f' rs.
  induction ks as [|k ks IH]; intros f items f' rs Hrepr Hnd Hfresh Hrun Hrs.
  { simpl in Hrun. simplify_eq. exists []. by rewrite app_nil_r. }
  simpl in Hrun.
  destruct (gr_ttf_string_cache_get f (text k) (max_width k))
    as [[f1 r]|] eqn:Hget; [|done]. simpl in Hrun.
  destruct (string_cache_get_all f1 ks) as [[f2 rs']|] eqn:Hrun'; [|done].
  simpl in Hrun. simplify_eq.
  apply Forall_cons in Hrs as [[res ->] Hrs].
  apply NoDup_cons in Hnd as [Hk Hnd].
  assert (Hkey : mkStringKey (text k) (max_width k) = k) by (by destruct k).
  assert (Hmiss : mkStringKey (text k) (max_width k) ∉ lru_keys items).
  { rewrite Hkey. apply Hfresh. set_solver. }
  destruct (gr_ttf_render_text f zero_surface (text k) (max_width k))
    as [[[f1' surf] len]|] eqn:Hrender.
  2:{ rewrite (string_cache_get_miss f items) in Hget by done.
      by rewrite Hrender in Hget. }
  destruct (Z.lt_ge_cases len 0) as [Hneg|Hpos].
  { destruct (string_cache_get_miss_fail f items (text k) (max_width k) f1' surf len)
      as [Hget1 _]; try done. rewrite Hget in Hget1. simplify_eq. }
  destruct (string_cache_get_miss_repr f items (text k) (max_width k) f1' surf len)
    as (f1'' & Hget1 & _ & Hrepr1 & _); try done.
  rewrite Hget in Hget1. simplify_eq. rewrite Hkey in Hrepr1.
  destruct (IH _ _ f' rs' Hrepr1 Hnd) as (new & Hrepr' & Hkeys); try done.
  { intros k' Hk'. unfold lru_keys. rewrite fmap_app. csimpl.
    intros [Hin|[->|[]%elem_of_nil]%elem_of_cons]%elem_of_app.
    - apply (Hfresh k'); [set_solver|done].
    - done. }
  exists ((malloc_entry f, (k, len, surf)) :: new). split.
  - by rewrite <-app_assoc in Hrepr'.
  - unfold lru_keys in *. csimpl. by rewrite Hkeys.
Qed.

(** C1 (what the code does instead). Calls of [gr_ttf_string_cache_get]
    for keys that are not cached never run the eviction batch, however many
    they are: every key is appended to the recency list and the hashmap
    grows by one entry for each, beyond [STRING_CACHE_MAX_ENTRIES] too. *)
Theorem string_cache_inserts_never_evict f items ks f' rs :
  string_cache_repr f items →
  NoDup ks → (∀ k, k ∈ ks → k ∉ lru_keys items) →
  string_cache_get_all f ks = Some (f', rs) →
  Forall is_Some rs →
  ∃ new, string_cache_repr f' (items ++ new) ∧ lru_keys new = ks
    ∧ size (string_cache f') = (length items + length ks)%nat.
Proof.
  intros Hrepr Hnd Hfresh Hrun Hrs.
  destruct (string_cache_get_all_misses f items ks f' rs) as (new & Hrepr' & Hkeys);
    try done.
  exists new. split_and!; [done|done|].
  rewrite (repr_size _ _ Hrepr'), length_app. f_equal.
  rewrite <-Hkeys. unfold lru_keys. by rewrite length_fmap.
Qed.

Lemma string_cache_inserts_never_evict_witness :
  string_cache_repr example_font []
  ∧ NoDup [mkStringKey [97] (-1)]
  ∧ string_cache_get_all example_font [mkStringKey [97] (-1)]
    = Some (example_font_a, [Some 1%positive])
  ∧ ∃ new, string_cache_repr example_font_a ([] ++ new)
      ∧ lru_keys new = [mkStringKey [97] (-1)]
      ∧ size (string_cache example_font_a) = (0 + 1)%nat.
Proof.
  assert (H0 : string_cache_repr example_font []) by (by apply repr_empty).
  assert (H1 : NoDup [mkStringKey [97] (-1)]) by apply NoDup_singleton.
  assert (H2 : string_cache_get_all example_font [mkStringKey [97] (-1)]
               = Some (example_font_a, [Some 1%positive])).
  { vm_cast_no_check (eq_refl (Some (example_font_a, [Some 1%positive]))). }
  split; [exact H0|]. split; [exact H1|]. split; [exact H2|].
  apply (string_cache_inserts_never_evict example_font []
           [mkStringKey [97] (-1)] example_font_a [Some 1%positive] H0 H1).
  - intros k _ Hk. by apply elem_of_nil in Hk.
  - exact H2.
  - repeat constructor; by eexists.
Defined.
